(** * Scalar expressions of the SQL engine: package [expression]

    A shallow embedding of [expression/expression.go]: the [Constant]
    variant, boolean evaluation, balanced composition and flattening of
    CNF/DNF trees, the null-propagation rewrite and the schema builder,
    with the properties the specification states about them. *)

From Stdlib Require Import ZArith List String Lia Permutation PeanoNat.
From stdpp Require Import gmap.
From Equations Require Import Equations.
Import ListNotations.

Local Open Scope Z_scope.
Set Warnings "-register-all".

(** ** Go-level conventions *)

(** Errors.  [errors.Errorf] creates an error from a message and
    [errors.Trace] (juju/errors) annotates an error with the location of the
    call, keeping its cause. *)
Inductive error : Type :=
| Errorf (msg : string)
| Traced (inner : error).

Definition Trace (err : error) : error := Traced err.

Fixpoint Cause (err : error) : error :=
  match err with
  | Traced inner => Cause inner
  | Errorf _ => err
  end.

(** A call either panics (nil dereference, method call on a nil interface) or
    returns.  A Go function with results [(T, error)] returns both
    components; [None] in the second one is the nil error. *)
Inductive outcome (A : Type) : Type :=
| Panic
| Return (a : A).
Arguments Panic {A}.
Arguments Return {A} a.

Definition bind {A B} (m : outcome A) (k : A -> outcome B) : outcome B :=
  match m with
  | Panic => Panic
  | Return a => k a
  end.

Notation "'let*' x ':=' m 'in' k" := (bind m (fun x => k))
  (at level 10, x pattern, m at level 200, k at level 200).

(** [model.CIStr]: a case-insensitive string with its original ([O]) and
    lower-cased ([L]) spelling. *)
Record CIStr : Type := mkCIStr { O : string; L : string }.

(** Locations of catalog objects ([*model.ColumnInfo], [*model.TableInfo]). *)
Definition loc : Type := nat.

(** ** The value and type subsystem (packages [types], [codec], [mysql])

    The source only calls into it; its operations are the parameters of the
    development. *)
Class Values : Type := {
  Datum : Type;                      (* types.Datum *)
  FieldType : Type;                  (* types.FieldType *)
  EvalContext : Type;                (* context.Context *)
  Datum_zero : Datum;                (* the zero value types.Datum{} *)
  IsNull : Datum -> bool;            (* Datum.IsNull *)
  ToBool : Datum -> Z * option error;            (* Datum.ToBool *)
  CompareDatum : Datum -> Datum -> Z * option error;  (* Datum.CompareDatum *)
  EncodeValue : list Byte.byte -> Datum -> list Byte.byte * option error;
                                     (* codec.EncodeValue(b, v) *)
  TypeTiny : Z;                      (* mysql.TypeTiny *)
  NewFieldType : Z -> FieldType;     (* types.NewFieldType *)
  ToLower : string -> string         (* strings.ToLower *)
}.

Section Expressions.
Context `{V : Values}.

(** A [*types.FieldType]: nil, a descriptor allocated for the expression, or
    the address of the [FieldType] field of the catalog's [ColumnInfo] at a
    location. *)
Inductive TypeRef : Type :=
| NilType
| OwnType (ft : FieldType)
| CatalogType (l : loc).

(** Modelled from the spec: [model.NewCIStr] is not part of the file; a
    function name is held with its lower-cased spelling. *)
Definition NewCIStr (s : string) : CIStr := mkCIStr s (ToLower s).

(** ** Expression variants *)

(** [Constant] stands for a constant value. *)
Record Constant : Type := mkConstant {
  Value : Datum;
  RetType : TypeRef
}.

(** [Column]: the fields the file assigns. *)
Record Column : Type := mkColumn {
  ColName : CIStr;
  TblName : CIStr;
  DBName : CIStr;
  ColRetType : TypeRef;
  Position : Z
}.

(** The values of the interface [Expression]: the nil interface, or a pointer
    to one of the variants. *)
Inductive Expression : Type :=
| ENil
| EConstant (c : Constant)
| EColumn (c : Column)
| EScalarFunction (FuncName : CIStr) (FuncRetType : TypeRef) (Args : list Expression).

(** [Schema] is a slice of columns. *)
Definition Schema : Type := list Column.

End Expressions.

(** ** The collaborators that work on expressions (schema lookup, the
    function table behind [NewFunction], evaluation of the other variants,
    the operator names of package [ast]) *)
Class Functions `{V : Values} : Type := {
  GetIndex : Schema -> Column -> Z;            (* Schema.GetIndex *)
  checkCall : string -> list Expression -> option error;
    (* the function table lookup and the arity and type check of NewFunction *)
  Column_Eval : Column -> list Datum -> EvalContext -> outcome (Datum * option error);
  ScalarFunction_Eval :
    CIStr -> TypeRef -> list Expression -> list Datum -> EvalContext ->
    outcome (Datum * option error);
  AndAnd : string;                             (* ast.AndAnd *)
  OrOr : string                                (* ast.OrOr *)
}.

Section Algorithms.
Context `{F : Functions}.

(** Modelled from the spec: [NewFunction] is not part of the file.  It fails
    with an error (and no expression) when the name is not a recognized
    function or the arity or type check fails, and otherwise builds the
    [ScalarFunction] holding the lower-cased name and the arguments. *)
Definition NewFunction (funcName : string) (retType : TypeRef)
    (args : list Expression) : Expression * option error :=
  match checkCall funcName args with
  | Some err => (ENil, Some err)
  | None => (EScalarFunction (NewCIStr funcName) retType args, None)
  end.

(** *** Constant *)

Definition Constant_Clone (c : Constant) : Expression := EConstant c.

Definition Constant_GetType (c : Constant) : TypeRef := RetType c.

Definition Constant_Eval (c : Constant) (row : list Datum) (ctx : EvalContext)
    : Datum * option error :=
  (Value c, None).

Definition Constant_Equal (c : Constant) (b : Expression) : bool :=
  match b with
  | EConstant y =>
      let '(con, err) := CompareDatum (Value c) (Value y) in
      match err with
      | Some _ => false
      | None => if negb (con =? 0) then false else true
      end
  | _ => false
  end.

Definition Constant_IsCorrelated (c : Constant) : bool := false.

Definition Constant_Decorrelate (c : Constant) (schema : Schema) : Expression :=
  EConstant c.


(** *** Dynamic dispatch of [Eval] *)

Definition Eval (expr : Expression) (row : list Datum) (ctx : EvalContext)
    : outcome (Datum * option error) :=
  match expr with
  | ENil => Panic
  | EConstant c => Return (Constant_Eval c row ctx)
  | EColumn c => Column_Eval c row ctx
  | EScalarFunction fn rt args => ScalarFunction_Eval fn rt args row ctx
  end.

(** *** EvalBool *)

Definition EvalBool (expr : Expression) (row : list Datum) (ctx : EvalContext)
    : outcome (bool * option error) :=
  let* (data, err) := Eval expr row ctx in
  match err with
  | Some e => Return (false, Some (Trace e))
  | None =>
      if IsNull data then Return (false, None)
      else
        let '(i, err) := ToBool data in
        match err with
        | Some e => Return (false, Some (Trace e))
        | None => Return (negb (i =? 0), None)
        end
  end.

(** *** Balanced composition *)

(** [composeConditionWithBinaryOp] composes conditions with a binary operator
    into a balanced tree.  The error of [NewFunction] is discarded. *)
Equations? composeConditionWithBinaryOp (conditions : list Expression)
    (funcName : string) : Expression by wf (length conditions) lt :=
  composeConditionWithBinaryOp [] _ := ENil;
  composeConditionWithBinaryOp [c] _ := c;
  composeConditionWithBinaryOp conditions funcName :=
    fst (NewFunction funcName (OwnType (NewFieldType TypeTiny))
           [ composeConditionWithBinaryOp
               (firstn (length conditions / 2) conditions) funcName;
             composeConditionWithBinaryOp
               (skipn (length conditions / 2) conditions) funcName ]).
Proof.
  all: change (Nat.divmod (length l) 1 1 1).1
         with (length (e :: e0 :: l) / 2)%nat;
       pose proof (Nat.div_lt (length (e :: e0 :: l)) 2 ltac:(simpl; lia) ltac:(lia));
       pose proof (Nat.div_str_pos (length (e :: e0 :: l)) 2 ltac:(simpl; lia)).
  - rewrite length_firstn. simpl length in *. lia.
  - rewrite length_skipn. simpl length in *. lia.
Qed.

Definition ComposeCNFCondition (conditions : list Expression) : Expression :=
  composeConditionWithBinaryOp conditions AndAnd.

Definition ComposeDNFCondition (conditions : list Expression) : Expression :=
  composeConditionWithBinaryOp conditions OrOr.

(** *** Flattening of a normal form *)

Fixpoint splitNormalFormItems (onExpr : Expression) (funcName : string)
    : list Expression :=
  match onExpr with
  | EScalarFunction fn _ args =>
      if String.eqb (L fn) funcName
      then flat_map (fun arg => splitNormalFormItems arg funcName) args
      else [onExpr]
  | _ => [onExpr]
  end.

Definition SplitCNFItems (onExpr : Expression) : list Expression :=
  splitNormalFormItems onExpr AndAnd.

Definition SplitDNFItems (onExpr : Expression) : list Expression :=
  splitNormalFormItems onExpr OrOr.

(** *** Null propagation *)

(** The loop over [x.Args]: each argument is rewritten in turn and the first
    error ends the loop with that error traced. *)
Definition rewriteArgs (rewrite : Expression -> outcome (Expression * option error))
    : list Expression -> outcome (list Expression + error) :=
  fix loop (rest : list Expression) :=
    match rest with
    | [] => Return (inl [])
    | arg :: rest' =>
        let* (a, err) := rewrite arg in
        match err with
        | Some e => Return (inr (Trace e))
        | None =>
            let* r := loop rest' in
            match r with
            | inl args => Return (inl (a :: args))
            | inr e => Return (inr e)
            end
        end
    end.

Fixpoint EvaluateExprWithNull (schema : Schema) (expr : Expression)
    : outcome (Expression * option error) :=
  match expr with
  | EScalarFunction fn _ xargs =>
      let* r := rewriteArgs (EvaluateExprWithNull schema) xargs in
      match r with
      | inr e => Return (ENil, Some e)
      | inl args =>
          Return (NewFunction (L fn) (OwnType (NewFieldType TypeTiny)) args)
      end
  | EColumn x =>
      if GetIndex schema x =? -1 then Return (EColumn x, None)
      else Return (EConstant (mkConstant Datum_zero NilType), None)
  | EConstant c => Return (Constant_Clone c, None)
  | ENil => Panic
  end.

(** *** Schema builder *)

(** [model.ColumnInfo] and [model.TableInfo], with the fields the file reads,
    and the catalog objects the result fields point to. *)
Record ColumnInfo : Type := mkColumnInfo {
  ColumnInfo_Name : CIStr;
  ColumnInfo_FieldType : FieldType
}.

Record TableInfo : Type := mkTableInfo { TableInfo_Name : CIStr }.

Record Catalog : Type := mkCatalog {
  columns : gmap loc ColumnInfo;
  tables : gmap loc TableInfo
}.

(** [ast.ResultField]: [Column] and [Table] are pointers into the catalog. *)
Record ResultField : Type := mkResultField {
  RF_Column : option loc;
  RF_Table : option loc;
  ColumnAsName : CIStr;
  TableAsName : CIStr;
  RF_DBName : CIStr
}.

Definition derefColumn (h : Catalog) (p : option loc) : outcome ColumnInfo :=
  match p with
  | None => Panic
  | Some l => match columns h !! l with Some ci => Return ci | None => Panic end
  end.

Definition derefTable (h : Catalog) (p : option loc) : outcome TableInfo :=
  match p with
  | None => Panic
  | Some l => match tables h !! l with Some ti => Return ti | None => Panic end
  end.

(** [&p.FieldType]: taking the address of the field checks [p] for nil. *)
Definition addrFieldType (h : Catalog) (p : option loc) : outcome TypeRef :=
  let* _ := derefColumn h p in
  match p with
  | Some l => Return (CatalogType l)
  | None => Panic
  end.

(** The body of the loop for the field at index [i]. *)
Definition fieldToColumn (h : Catalog) (i : nat) (field : option ResultField)
    : outcome Column :=
  match field with
  | None => Panic
  | Some field =>
      let* colName :=
        (if String.eqb (L (ColumnAsName field)) ""
         then let* ci := derefColumn h (RF_Column field) in
              Return (ColumnInfo_Name ci)
         else Return (ColumnAsName field)) in
      let* tblName :=
        (if String.eqb (L (TableAsName field)) ""
         then let* ti := derefTable h (RF_Table field) in
              Return (TableInfo_Name ti)
         else Return (TableAsName field)) in
      let* tp := addrFieldType h (RF_Column field) in
      Return (mkColumn colName tblName (RF_DBName field) tp (Z.of_nat i))
  end.

Fixpoint ResultFieldsToSchema_from (h : Catalog) (i : nat)
    (fields : list (option ResultField)) (schema : Schema) : outcome Schema :=
  match fields with
  | [] => Return schema
  | field :: rest =>
      let* col := fieldToColumn h i field in
      ResultFieldsToSchema_from h (S i) rest (schema ++ [col])
  end.

Definition ResultFieldsToSchema (h : Catalog)
    (fields : list (option ResultField)) : outcome Schema :=
  ResultFieldsToSchema_from h 0 fields [].

End Algorithms.

(** ** Measures and predicates used by the statements *)

Section Measures.
Context `{F : Functions}.

(** Application-nesting depth of an expression: the number of nested
    function applications on its longest path. *)
Fixpoint depth (e : Expression) : nat :=
  match e with
  | EScalarFunction _ _ args =>
      S (fold_right (fun arg m => Nat.max (depth arg) m) 0%nat args)
  | _ => 0%nat
  end.

(** [composedOf op h items e]: [e] is a tree of binary applications of [op]
    whose leaves, from left to right, are [items], the deepest leaf lying
    under [h] applications. *)
Inductive composedOf (op : string) : nat -> list Expression -> Expression -> Prop :=
| composedOf_leaf c : composedOf op 0 [c] c
| composedOf_node h1 h2 l1 l2 e1 e2 rt :
    composedOf op h1 l1 e1 ->
    composedOf op h2 l2 e2 ->
    composedOf op (S (Nat.max h1 h2)) (l1 ++ l2)
      (EScalarFunction (NewCIStr op) rt [e1; e2]).

(** [e] is an application of the operator [op], as [splitNormalFormItems]
    tests it. *)
Definition isApplicationOf (op : string) (e : Expression) : bool :=
  match e with
  | EScalarFunction fn _ _ => String.eqb (L fn) op
  | _ => false
  end.

(** [NewFunction] accepts [op] applied to two arguments. *)
Definition acceptsBinary (op : string) : Prop :=
  forall x y : Expression, checkCall op [x; y] = None.

(** The lexicographic order on byte strings. *)
Fixpoint bytesCompare (a b : list Byte.byte) : Z :=
  match a, b with
  | [], [] => 0
  | [], _ :: _ => -1
  | _ :: _, [] => 1
  | x :: a', y :: b' =>
      match N.compare (Byte.to_N x) (Byte.to_N y) with
      | Lt => -1
      | Gt => 1
      | Eq => bytesCompare a' b'
      end
  end.

(** What a [*types.FieldType] points to in a catalog. *)
Definition loadType (h : Catalog) (r : TypeRef) : option FieldType :=
  match r with
  | NilType => None
  | OwnType ft => Some ft
  | CatalogType l => ColumnInfo_FieldType <$> columns h !! l
  end.

(** Assignment to the [FieldType] field of the catalog's column at [l]. *)
Definition storeColumnType (h : Catalog) (l : loc) (ft : FieldType) : Catalog :=
  mkCatalog
    (alter (fun ci => mkColumnInfo (ColumnInfo_Name ci) ft) l (columns h))
    (tables h).

(** A result field the loop body can process: the field and its column are
    not nil, and its table is not nil when there is no table alias. *)
Definition usableField (h : Catalog) (field : option ResultField) : Prop :=
  exists f l ci,
    field = Some f /\ RF_Column f = Some l /\ columns h !! l = Some ci /\
    (L (TableAsName f) = ""%string ->
     exists t ti, RF_Table f = Some t /\ tables h !! t = Some ti).

(** [col] is the column the schema builder makes of the field [f] at index
    [i]: the aliases when set and else the names of the catalog objects, the
    address of the catalog column's type descriptor, and the index. *)
Definition columnFor (h : Catalog) (i : nat) (f : ResultField) (col : Column)
    : Prop :=
  exists l ci,
    RF_Column f = Some l /\ columns h !! l = Some ci /\
    (L (ColumnAsName f) <> ""%string -> ColName col = ColumnAsName f) /\
    (L (ColumnAsName f) = ""%string -> ColName col = ColumnInfo_Name ci) /\
    (L (TableAsName f) <> ""%string -> TblName col = TableAsName f) /\
    (forall t ti,
       L (TableAsName f) = ""%string ->
       RF_Table f = Some t -> tables h !! t = Some ti ->
       TblName col = TableInfo_Name ti) /\
    DBName col = RF_DBName f /\
    ColRetType col = CatalogType l /\
    Position col = Z.of_nat i.

End Measures.

(** ** Shapes of expression trees *)

Section Shapes.
Context `{V : Values}.

(** The columns of an expression, from left to right. *)
Fixpoint columnsOf (e : Expression) : list Column :=
  match e with
  | EColumn c => [c]
  | EScalarFunction _ _ args => flat_map columnsOf args
  | _ => []
  end.

(** The number of function applications in an expression. *)
Fixpoint applications (e : Expression) : nat :=
  match e with
  | EScalarFunction _ _ args =>
      S (fold_right (fun arg n => (applications arg + n)%nat) 0%nat args)
  | _ => 0%nat
  end.

(** No nil interface occurs in the expression. *)
Fixpoint nilFree (e : Expression) : bool :=
  match e with
  | ENil => false
  | EScalarFunction _ _ args => forallb nilFree args
  | _ => true
  end.

End Shapes.

(** ** A concrete instance of the collaborators, used to run the definitions *)

Module Demo.

Inductive datum : Type :=
| DNull
| DInt (z : Z)
| DStr (s : string).

Definition lowerAscii (c : Ascii.ascii) : Ascii.ascii :=
  let n := Ascii.nat_of_ascii c in
  if ((65 <=? n) && (n <=? 90))%nat then Ascii.ascii_of_nat (n + 32) else c.

Fixpoint lowerString (s : string) : string :=
  match s with
  | EmptyString => EmptyString
  | String c s' => String (lowerAscii c) (lowerString s')
  end.

(** The [n] low bytes of [z], most significant first. *)
Fixpoint bigEndian (n : nat) (z : Z) : list Byte.byte :=
  match n with
  | 0%nat => []
  | S n' =>
      bigEndian n' (z / 256)
      ++ [default Byte.x00 (Byte.of_N (Z.to_N (z mod 256)))]
  end.

Definition encode (b : list Byte.byte) (d : datum) : list Byte.byte * option error :=
  match d with
  | DNull => (b ++ [Byte.x00], None)
  | DInt z => (b ++ Byte.x03 :: bigEndian 8 ((z + 2 ^ 63) mod 2 ^ 64), None)
  | DStr s => (b ++ Byte.x01 :: list_byte_of_string s, None)
  end.

#[export] Instance values : Values := {|
  Datum := datum;
  FieldType := Z;
  EvalContext := unit;
  Datum_zero := DNull;
  IsNull d := match d with DNull => true | _ => false end;
  ToBool d :=
    match d with
    | DNull => (0, None)
    | DInt z => (if z =? 0 then 0 else 1, None)
    | DStr _ => (0, Some (Errorf "cannot convert a string to a boolean"))
    end;
  CompareDatum x y :=
    (bytesCompare (fst (encode [] x)) (fst (encode [] y)), None);
  EncodeValue := encode;
  TypeTiny := 1;
  NewFieldType tp := tp;
  ToLower := lowerString
|}.

(** The function table knows the binary operators [and], [or], [plus]. *)
Definition check (name : string) (args : list (@Expression values)) : option error :=
  if (String.eqb name "and" || String.eqb name "or" || String.eqb name "plus")%bool
  then if (length args =? 2)%nat then None
       else Some (Errorf "wrong number of arguments")
  else Some (Errorf "unknown function").

Definition sameColumn (a b : @Column values) : bool :=
  String.eqb (L (ColName a)) (L (ColName b))
  && String.eqb (L (TblName a)) (L (TblName b)).

Fixpoint indexOf (schema : list (@Column values)) (c : @Column values) (i : Z) : Z :=
  match schema with
  | [] => -1
  | x :: rest => if sameColumn x c then i else indexOf rest c (i + 1)
  end.

#[export] Instance functions : @Functions values := {|
  GetIndex schema c := indexOf schema c 0;
  checkCall := check;
  Column_Eval c row ctx :=
    match nth_error row (Z.to_nat (Position c)) with
    | Some d => Return (d, None)
    | None => Panic
    end;
  ScalarFunction_Eval fn rt args row ctx :=
    Return (DNull, Some (Errorf "not evaluated"));
  AndAnd := "and";
  OrOr := "or"
|}.

Definition name (s : string) : CIStr := mkCIStr s (lowerString s).

Definition col (s : string) : @Expression values :=
  EColumn (mkColumn (name s) (name "t") (name "test") NilType (-1)).

Definition int (z : Z) : @Expression values :=
  EConstant (mkConstant (DInt z) (OwnType 8)).

(** Data for the examples. *)

Definition fiveConditions : list Expression :=
  [col "a"; col "b"; col "c"; int 3; col "e"].

Definition columnA : Column :=
  mkColumn (name "a") (name "t") (name "test") (OwnType 8) 0.

Definition columnB : Column :=
  mkColumn (name "b") (name "u") (name "test") (OwnType 8) 0.

Definition plusAB : Expression :=
  EScalarFunction (name "plus") (OwnType 8) [EColumn columnA; EColumn columnB].

Definition unknownCall : Expression :=
  EScalarFunction (name "nope") NilType [EColumn columnA].

Definition catalog : @Catalog values :=
  mkCatalog {[ 1%nat := @mkColumnInfo values (name "c1") 3 ]}
            {[ 7%nat := mkTableInfo (name "t1") ]}.

Definition plainField : ResultField :=
  mkResultField (Some 1%nat) (Some 7%nat) (mkCIStr "" "") (mkCIStr "" "")
    (name "test").

Definition aliasedField : ResultField :=
  mkResultField (Some 1%nat) None (name "c2") (name "t2") (name "test").

Definition leftDeep : Expression :=
  EScalarFunction (name "and") NilType
    [ EScalarFunction (name "and") NilType
        [ EScalarFunction (name "AND") NilType [col "a"; col "b"]; col "c" ];
      col "d" ].

Definition nullConstant : Expression := EConstant (mkConstant DNull NilType).

Definition plusNullB : Expression :=
  EScalarFunction (name "plus") (OwnType 1) [nullConstant; EColumn columnB].

Definition plusWithUnknown : Expression :=
  EScalarFunction (name "plus") (OwnType 8) [EColumn columnB; unknownCall].

End Demo.

(** ** A value subsystem with two integer representations

    Signed and unsigned integers are compared by their numeric value, and
    the encoding of a value starts with a tag for its representation. *)

Module Kinds.

Inductive datum : Type :=
| KNull
| KInt (z : Z)
| KUint (n : N).

Definition number (d : datum) : option Z :=
  match d with
  | KNull => None
  | KInt z => Some z
  | KUint n => Some (Z.of_N n)
  end.

Definition compare (x y : datum) : Z * option error :=
  match number x, number y with
  | None, None => (0, None)
  | None, Some _ => (-1, None)
  | Some _, None => (1, None)
  | Some a, Some b =>
      (match a ?= b with Lt => -1 | Eq => 0 | Gt => 1 end, None)
  end.

Definition encode (b : list Byte.byte) (d : datum) : list Byte.byte * option error :=
  match d with
  | KNull => (b ++ [Byte.x00], None)
  | KInt z => (b ++ Byte.x03 :: Demo.bigEndian 8 ((z + 2 ^ 63) mod 2 ^ 64), None)
  | KUint n => (b ++ Byte.x04 :: Demo.bigEndian 8 (Z.of_N n mod 2 ^ 64), None)
  end.

Definition values : Values := {|
  Datum := datum;
  FieldType := Z;
  EvalContext := unit;
  Datum_zero := KNull;
  IsNull d := match d with KNull => true | _ => false end;
  ToBool d :=
    match number d with
    | Some z => (if z =? 0 then 0 else 1, None)
    | None => (0, None)
    end;
  CompareDatum := compare;
  EncodeValue := encode;
  TypeTiny := 1;
  NewFieldType tp := tp;
  ToLower := Demo.lowerString
|}.



End Kinds.

(** ** Properties *)

Section Properties.
Context `{F : Functions}.

(** *** Arithmetic of the midpoint split *)

Lemma log2_up_halves (n : nat) :
  (2 <= n)%nat ->
  Nat.log2_up n = S (Nat.max (Nat.log2_up (n / 2)) (Nat.log2_up (n - n / 2))).
Proof.
  intros Hn.
  pose proof (Nat.div_mod_eq n 2) as Hdiv.
  pose proof (Nat.mod_upper_bound n 2 ltac:(lia)) as Hmod.
  assert (Hle : (n / 2 <= n - n / 2)%nat) by lia.
  rewrite (Nat.max_r _ _ (Nat.log2_up_le_mono _ _ Hle)).
  destruct (Nat.eq_dec (n - n / 2)%nat 1%nat) as [Hone | Hmore].
  - assert (n = 2%nat) by lia. subst n. reflexivity.
  - assert (Hm : (1 < n - n / 2)%nat) by lia.
    pose proof (Nat.log2_up_spec _ Hm) as [Hlow Hhigh].
    pose proof (Nat.log2_up_pos _ Hm) as Hpos.
    remember (Nat.log2_up (n - n / 2)%nat) as k eqn:Hk.
    destruct k as [ | k']; [lia | ].
    simpl Nat.pred in Hlow.
    apply Nat.log2_up_unique; [lia | ].
    simpl Nat.pred. rewrite !Nat.pow_succ_r' in *. lia.
Qed.

(** *** Unfolding of the composition *)

Lemma compose_nil (op : string) : composeConditionWithBinaryOp [] op = ENil.
Proof. now simp composeConditionWithBinaryOp. Qed.

Lemma compose_single (c : Expression) (op : string) :
  composeConditionWithBinaryOp [c] op = c.
Proof. now simp composeConditionWithBinaryOp. Qed.

Lemma compose_split (conditions : list Expression) (op : string) :
  (2 <= length conditions)%nat ->
  composeConditionWithBinaryOp conditions op =
  fst (NewFunction op (OwnType (NewFieldType TypeTiny))
         [ composeConditionWithBinaryOp
             (firstn (length conditions / 2) conditions) op;
           composeConditionWithBinaryOp
             (skipn (length conditions / 2) conditions) op ]).
Proof.
  destruct conditions as [ | a [ | b rest]]; simpl length; try lia.
  intros _. now rewrite composeConditionWithBinaryOp_equation_3.
Qed.

Lemma NewFunction_binary (op : string) (rt : TypeRef) (x y : Expression) :
  acceptsBinary op ->
  NewFunction op rt [x; y] = (EScalarFunction (NewCIStr op) rt [x; y], None).
Proof. intros Hop. unfold NewFunction. now rewrite Hop. Qed.

Lemma compose_composedOf (op : string) :
  acceptsBinary op ->
  forall (n : nat) (conditions : list Expression),
    length conditions = n -> conditions <> [] ->
    composedOf op (Nat.log2_up n) conditions
      (composeConditionWithBinaryOp conditions op).
Proof.
  intros Hop n. induction n as [n IH] using lt_wf_ind.
  intros conditions Hlen Hne.
  destruct conditions as [ | a [ | b rest]]; [congruence | | ].
  - subst n. rewrite compose_single. apply composedOf_leaf.
  - remember (a :: b :: rest) as l eqn:Hl.
    assert (Hn : (2 <= n)%nat) by (subst n l; simpl; lia).
    pose proof (Nat.div_lt n 2 ltac:(lia) ltac:(lia)) as Hhalf.
    pose proof (Nat.div_str_pos n 2 ltac:(lia)) as Hpos.
    rewrite compose_split by lia.
    rewrite NewFunction_binary by exact Hop. cbn [fst].
    rewrite Hlen, (log2_up_halves n Hn).
    rewrite <- (firstn_skipn (n / 2)%nat l) at 1.
    apply composedOf_node.
    + apply IH; [lia | rewrite length_firstn; lia | ].
      intros Hnil. apply (f_equal (@length _)) in Hnil.
      rewrite length_firstn in Hnil. cbn [length] in Hnil. lia.
    + apply IH; [lia | rewrite length_skipn; lia | ].
      intros Hnil. apply (f_equal (@length _)) in Hnil.
      rewrite length_skipn in Hnil. cbn [length] in Hnil. lia.
Qed.

Lemma composedOf_depth (op : string) (h : nat) (items : list Expression)
    (e : Expression) (d : nat) :
  composedOf op h items e ->
  Forall (fun c => depth c = d) items ->
  depth e = (d + h)%nat.
Proof.
  induction 1 as [c | h1 h2 l1 l2 e1 e2 rt _ IH1 _ IH2]; intros Hall.
  - inversion Hall; subst. lia.
  - apply Forall_app in Hall as [Hl1 Hl2].
    simpl. rewrite (IH1 Hl1), (IH2 Hl2). lia.
Qed.

Lemma composedOf_depth_bounds (op : string) (h : nat) (items : list Expression)
    (e : Expression) :
  composedOf op h items e ->
  (h <= depth e)%nat
  /\ forall d, Forall (fun c => (depth c <= d)%nat) items ->
       (depth e <= d + h)%nat.
Proof.
  induction 1 as [c | h1 h2 l1 l2 e1 e2 rt _ [IH1 IH1'] _ [IH2 IH2']].
  - split; [lia | ]. intros d Hall. inversion Hall; subst. lia.
  - split; [simpl; lia | ]. intros d Hall.
    apply Forall_app in Hall as [Hl1 Hl2].
    specialize (IH1' d Hl1). specialize (IH2' d Hl2). simpl. lia.
Qed.

Lemma split_leaf (op : string) (c : Expression) :
  isApplicationOf op c = false -> splitNormalFormItems c op = [c].
Proof.
  destruct c as [ | k | k | fn rt args]; simpl; try reflexivity.
  now intros ->.
Qed.

Lemma composedOf_split (op : string) (h : nat) (items : list Expression)
    (e : Expression) :
  ToLower op = op ->
  composedOf op h items e ->
  Forall (fun c => isApplicationOf op c = false) items ->
  splitNormalFormItems e op = items.
Proof.
  intros Hlower. induction 1 as [c | h1 h2 l1 l2 e1 e2 rt _ IH1 _ IH2]; intros Hall.
  - inversion Hall; subst. now apply split_leaf.
  - apply Forall_app in Hall as [Hl1 Hl2].
    simpl. rewrite Hlower, String.eqb_refl.
    rewrite (IH1 Hl1), (IH2 Hl2). now rewrite app_nil_r.
Qed.

(** *** Composition and flattening *)

(** C1. For a non-empty list of N conditions and an operator that
    [NewFunction] accepts on two arguments, [composeConditionWithBinaryOp]
    (so also [ComposeCNFCondition] and [ComposeDNFCondition], which are this
    function at the operators AND and OR) returns the element itself when
    N = 1, and for N >= 2 one application of the operator to the compositions
    of the two halves of the list split at the midpoint; the result is a
    tree of applications over the conditions whose nesting depth is the
    ceiling of log2 N, so its depth is that number above the depth of the
    conditions when they all have the same depth, and at most that number
    above a bound on their depths. *)
Theorem compose_balanced_depth (conditions : list Expression) (op : string) :
  conditions <> [] ->
  acceptsBinary op ->
  (forall c, conditions = [c] ->
     composeConditionWithBinaryOp conditions op = c)
  /\ ((2 <= length conditions)%nat ->
      composeConditionWithBinaryOp conditions op =
      EScalarFunction (NewCIStr op) (OwnType (NewFieldType TypeTiny))
        [ composeConditionWithBinaryOp
            (firstn (length conditions / 2) conditions) op;
          composeConditionWithBinaryOp
            (skipn (length conditions / 2) conditions) op ])
  /\ composedOf op (Nat.log2_up (length conditions)) conditions
       (composeConditionWithBinaryOp conditions op)
  /\ (forall d, Forall (fun c => depth c = d) conditions ->
        depth (composeConditionWithBinaryOp conditions op)
        = (d + Nat.log2_up (length conditions))%nat)
  /\ (Nat.log2_up (length conditions)
      <= depth (composeConditionWithBinaryOp conditions op))%nat
  /\ (forall d, Forall (fun c => (depth c <= d)%nat) conditions ->
        (depth (composeConditionWithBinaryOp conditions op)
         <= d + Nat.log2_up (length conditions))%nat)
  /\ ComposeCNFCondition conditions = composeConditionWithBinaryOp conditions AndAnd
  /\ ComposeDNFCondition conditions = composeConditionWithBinaryOp conditions OrOr.
Proof.
  intros Hne Hop.
  pose proof (compose_composedOf op Hop _ conditions eq_refl Hne) as Htree.
  repeat split.
  - intros c ->. apply compose_single.
  - intros Hlen. rewrite compose_split by exact Hlen.
    now rewrite NewFunction_binary.
  - exact Htree.
  - intros d Hall. exact (composedOf_depth _ _ _ _ _ Htree Hall).
  - exact (proj1 (composedOf_depth_bounds _ _ _ _ Htree)).
  - exact (proj2 (composedOf_depth_bounds _ _ _ _ Htree)).
Qed.

(** C2 (amended). [ComposeCNFCondition] of the empty list is nil, and
    [SplitCNFItems] of that nil result is the list whose single element is
    the nil expression. *)
Theorem compose_empty_split_singleton :
  ComposeCNFCondition [] = ENil
  /\ SplitCNFItems (ComposeCNFCondition []) = [ENil]
  /\ length (SplitCNFItems (ComposeCNFCondition [])) = 1%nat.
Proof.
  unfold ComposeCNFCondition, SplitCNFItems.
  rewrite compose_nil. repeat split.
Qed.

(** C10. For a non-empty list of expressions none of which is an application
    of the operator, the operator being spelled in lower case and accepted by
    [NewFunction] on two arguments, flattening the composition returns the
    list itself, element for element in the same order. *)
Theorem split_compose_same_list (op : string) (conditions : list Expression) :
  conditions <> [] ->
  ToLower op = op ->
  acceptsBinary op ->
  Forall (fun c => isApplicationOf op c = false) conditions ->
  splitNormalFormItems (composeConditionWithBinaryOp conditions op) op
  = conditions.
Proof.
  intros Hne Hlower Hop Hall.
  eapply composedOf_split; [exact Hlower | | exact Hall].
  now apply compose_composedOf.
Qed.

(** C3 (amended). For a non-empty list of expressions none of which is an
    AND-application, [SplitCNFItems (ComposeCNFCondition list)] has the same
    multiset of elements as the list. *)
Theorem SplitCNF_ComposeCNF_permutation (conditions : list Expression) :
  conditions <> [] ->
  ToLower AndAnd = AndAnd ->
  acceptsBinary AndAnd ->
  Forall (fun c => isApplicationOf AndAnd c = false) conditions ->
  Permutation (SplitCNFItems (ComposeCNFCondition conditions)) conditions.
Proof.
  intros Hne Hlower Hop Hall.
  unfold SplitCNFItems, ComposeCNFCondition.
  erewrite composedOf_split; [reflexivity | exact Hlower | | exact Hall].
  now apply compose_composedOf.
Qed.

(** *** Constant: equality and hash code *)

Lemma Constant_Equal_true_iff (c : Constant) (b : Expression) :
  Constant_Equal c b = true <->
  exists y, b = EConstant y /\ CompareDatum (Value c) (Value y) = (0, None).
Proof.
  split.
  - destruct b as [ | y | k | fn rt args]; simpl; try discriminate.
    destruct (CompareDatum (Value c) (Value y)) as [con [e | ]] eqn:Hcmp;
      try discriminate.
    destruct (Z.eqb_spec con 0) as [-> | Hcon]; simpl; try discriminate.
    intros _. now exists y.
  - intros (y & -> & Hcmp). simpl. now rewrite Hcmp.
Qed.


(** C5. Two constants whose values compare equal ([CompareDatum] reports 0
    and no error) are [Equal] whatever their declared-type pointers are, and
    a constant is not [Equal] to an expression that is not a constant. *)
Theorem Constant_Equal_by_value (x y : Datum) (t1 t2 : TypeRef)
    (c : Constant) (e : Expression) :
  CompareDatum x y = (0, None) ->
  (forall k, e <> EConstant k) ->
  Constant_Equal (mkConstant x t1) (EConstant (mkConstant y t2)) = true
  /\ Constant_Equal c e = false.
Proof.
  intros Hcmp Hother. split.
  - apply Constant_Equal_true_iff. now exists (mkConstant y t2).
  - destruct e as [ | k | k | fn rt args]; try reflexivity.
    now destruct (Hother k).
Qed.


(** *** EvalBool *)

(** C8. [EvalBool] returns false with the traced error when evaluation
    fails; false and no error when the value is null; otherwise false with
    the traced error when the coercion to boolean fails, and else whether
    the coerced value is not zero, with no error. *)
Theorem EvalBool_cases (expr : Expression) (row : list Datum) (ctx : EvalContext)
    (data : Datum) (err : option error) :
  Eval expr row ctx = Return (data, err) ->
  (forall e, err = Some e ->
     EvalBool expr row ctx = Return (false, Some (Trace e)))
  /\ (err = None -> IsNull data = true ->
      EvalBool expr row ctx = Return (false, None))
  /\ (forall i e, err = None -> IsNull data = false ->
       ToBool data = (i, Some e) ->
       EvalBool expr row ctx = Return (false, Some (Trace e)))
  /\ (forall i, err = None -> IsNull data = false ->
       ToBool data = (i, None) ->
       exists b, EvalBool expr row ctx = Return (b, None)
                 /\ (b = true <-> i <> 0)).
Proof.
  intros Heval. unfold EvalBool. rewrite Heval. simpl.
  split; [ | split; [ | split]].
  - now intros e ->.
  - now intros -> ->.
  - intros i e -> -> Hbool. now rewrite Hbool.
  - intros i -> -> Hbool. rewrite Hbool.
    exists (negb (i =? 0)). split; [reflexivity | ].
    destruct (Z.eqb_spec i 0) as [-> | Hi]; simpl; split; intros; try easy.
Qed.

(** *** Null propagation *)

Lemma EvaluateExprWithNull_ScalarFunction_eq (schema : Schema) (fn : CIStr)
    (rt : TypeRef) (xargs : list Expression) :
  EvaluateExprWithNull schema (EScalarFunction fn rt xargs) =
  let* r := rewriteArgs (EvaluateExprWithNull schema) xargs in
  match r with
  | inr e => Return (ENil, Some e)
  | inl args => Return (NewFunction (L fn) (OwnType (NewFieldType TypeTiny)) args)
  end.
Proof. reflexivity. Qed.

Lemma rewriteArgs_all_ok (rewrite : Expression -> outcome (Expression * option error))
    (args args' : list Expression) :
  Forall2 (fun a a' => rewrite a = Return (a', None)) args args' ->
  rewriteArgs rewrite args = Return (inl args').
Proof.
  induction 1 as [ | a a' args args' Ha _ IH]; simpl; [reflexivity | ].
  now rewrite Ha, IH.
Qed.

Lemma rewriteArgs_first_error (rewrite : Expression -> outcome (Expression * option error))
    (pre pre' post : list Expression) (a x : Expression) (err : error) :
  Forall2 (fun a a' => rewrite a = Return (a', None)) pre pre' ->
  rewrite a = Return (x, Some err) ->
  rewriteArgs rewrite (pre ++ a :: post) = Return (inr (Trace err)).
Proof.
  intros Hpre Ha.
  induction Hpre as [ | p p' pre pre' Hp _ IH]; simpl.
  - now rewrite Ha.
  - now rewrite Hp, IH.
Qed.

(** C6. For a column [c]: when [GetIndex] does not find it in the schema
    (-1), [EvaluateExprWithNull] returns [c] itself and no error; when it is
    found, it returns, with no error, a constant whose value is the zero
    [Datum], the null value, and whose declared type is nil whatever the type
    of [c] is. *)
Theorem EvaluateExprWithNull_Column (schema : Schema) (c : Column) :
  IsNull Datum_zero = true ->
  (GetIndex schema c = -1 ->
     EvaluateExprWithNull schema (EColumn c) = Return (EColumn c, None))
  /\ (GetIndex schema c <> -1 ->
      exists k,
        EvaluateExprWithNull schema (EColumn c) = Return (EConstant k, None)
        /\ Value k = Datum_zero
        /\ IsNull (Value k) = true
        /\ Constant_GetType k = NilType
        /\ (ColRetType c <> NilType -> Constant_GetType k <> ColRetType c)).
Proof.
  intros Hzero. simpl. split.
  - now intros ->.
  - intros Hfound. destruct (Z.eqb_spec (GetIndex schema c) (-1)) as [ | _];
      [contradiction | ].
    exists (mkConstant Datum_zero NilType). repeat split; auto.
Qed.

(** C7. For a function application [f]: when every argument is rewritten
    without error, [EvaluateExprWithNull] returns what [NewFunction] returns
    for the lower-cased name of [f] and the rewritten arguments in order,
    that is a new [ScalarFunction] with that name over them, or no expression
    and the construction error; when the rewriting of an argument fails, it
    returns no expression and that error, traced. *)
Theorem EvaluateExprWithNull_ScalarFunction (schema : Schema) (fn : CIStr)
    (rt : TypeRef) (xargs : list Expression) :
  (forall args,
     Forall2 (fun a a' => EvaluateExprWithNull schema a = Return (a', None))
       xargs args ->
     EvaluateExprWithNull schema (EScalarFunction fn rt xargs)
     = Return (NewFunction (L fn) (OwnType (NewFieldType TypeTiny)) args)
     /\ (checkCall (L fn) args = None ->
         EvaluateExprWithNull schema (EScalarFunction fn rt xargs)
         = Return (EScalarFunction (NewCIStr (L fn))
                     (OwnType (NewFieldType TypeTiny)) args, None))
     /\ (forall err, checkCall (L fn) args = Some err ->
         EvaluateExprWithNull schema (EScalarFunction fn rt xargs)
         = Return (ENil, Some err)))
  /\ (forall pre pre' a post x err,
       xargs = pre ++ a :: post ->
       Forall2 (fun a a' => EvaluateExprWithNull schema a = Return (a', None))
         pre pre' ->
       EvaluateExprWithNull schema a = Return (x, Some err) ->
       EvaluateExprWithNull schema (EScalarFunction fn rt xargs)
       = Return (ENil, Some (Trace err))).
Proof.
  split.
  - intros args Hargs.
    rewrite EvaluateExprWithNull_ScalarFunction_eq.
    rewrite (rewriteArgs_all_ok _ _ _ Hargs). simpl.
    unfold NewFunction. repeat split.
    + now intros ->.
    + now intros err ->.
  - intros pre pre' a post x err -> Hpre Ha.
    rewrite EvaluateExprWithNull_ScalarFunction_eq.
    now rewrite (rewriteArgs_first_error _ _ _ _ _ _ _ Hpre Ha).
Qed.

(** *** Schema builder *)

Lemma fieldToColumn_usable (h : Catalog) (i : nat) (field : option ResultField) :
  usableField h field ->
  exists f col,
    field = Some f /\ fieldToColumn h i field = Return col /\ columnFor h i f col.
Proof.
  intros (f & l & ci & -> & Hcol & Hci & Htbl).
  exists f. unfold fieldToColumn, addrFieldType, derefColumn, derefTable.
  rewrite Hcol, Hci. simpl.
  destruct (String.eqb_spec (L (ColumnAsName f)) "") as [Hcnone | Hcalias];
    destruct (String.eqb_spec (L (TableAsName f)) "") as [Hnone | Halias];
    simpl.
  1, 3: destruct (Htbl Hnone) as (t & ti & Ht & Hti); rewrite Ht, Hti; simpl.
  all: eexists; split; [reflexivity | ]; split; [reflexivity | ];
    exists l, ci; simpl; repeat split; try congruence.
Qed.

Lemma ResultFieldsToSchema_from_usable (h : Catalog)
    (fields : list (option ResultField)) :
  Forall (usableField h) fields ->
  forall (i : nat) (acc : Schema),
  exists cols : Schema,
    ResultFieldsToSchema_from h i fields acc = Return (acc ++ cols)
    /\ length cols = length fields
    /\ forall (j : nat) (f : ResultField),
         fields !! j = Some (Some f) ->
         exists col, cols !! j = Some col /\ columnFor h (i + j) f col.
Proof.
  induction 1 as [ | field rest Hfield _ IH]; intros i acc.
  - exists []. simpl. rewrite app_nil_r. repeat split. intros j f Hj.
    now rewrite lookup_nil in Hj.
  - destruct (fieldToColumn_usable h i field Hfield) as (f & col & -> & Hcol & Hfor).
    destruct (IH (S i) (acc ++ [col])) as (cols & Hrun & Hlen & Hcols).
    exists (col :: cols). cbn [ResultFieldsToSchema_from].
    rewrite Hcol. cbn [bind]. rewrite Hrun, <- app_assoc. simpl.
    repeat split; [now rewrite Hlen | ].
    intros [ | j] g Hj; simpl in Hj.
    + injection Hj as <-. exists col. rewrite Nat.add_0_r. now split.
    + destruct (Hcols j g Hj) as (col' & Hlook & Hfor').
      exists col'. split; [exact Hlook | ].
      now replace (i + S j)%nat with (S i + j)%nat by lia.
Qed.

Lemma loadType_storeColumnType (h : Catalog) (l : loc) (ci : ColumnInfo)
    (ft : FieldType) :
  columns h !! l = Some ci ->
  loadType (storeColumnType h l ft) (CatalogType l) = Some ft.
Proof.
  intros Hci. unfold loadType, storeColumnType. simpl.
  now rewrite lookup_alter_eq, Hci.
Qed.

(** C9. For a list of result fields (non-nil, with their catalog objects),
    [ResultFieldsToSchema] returns one column per field in the same order;
    the column at index [i] has the column alias of field [i] as its name when
    the alias is set and the name of the underlying column otherwise, the
    same for the table alias and the table name, the database name of the
    field, [Position] [i], and as declared type the address of the
    underlying column's type descriptor: it reads what the catalog holds,
    also after the catalog's descriptor is assigned to. *)
Theorem ResultFieldsToSchema_columns (h : Catalog)
    (fields : list (option ResultField)) :
  Forall (usableField h) fields ->
  exists schema : Schema,
    ResultFieldsToSchema h fields = Return schema
    /\ length schema = length fields
    /\ forall (i : nat) (f : ResultField),
         fields !! i = Some (Some f) ->
         exists col l ci,
           schema !! i = Some col
           /\ columnFor h i f col
           /\ Position col = Z.of_nat i
           /\ RF_Column f = Some l /\ columns h !! l = Some ci
           /\ ColRetType col = CatalogType l
           /\ loadType h (ColRetType col) = Some (ColumnInfo_FieldType ci)
           /\ forall ft,
                loadType (storeColumnType h l ft) (ColRetType col) = Some ft.
Proof.
  intros Hfields.
  destruct (ResultFieldsToSchema_from_usable h fields Hfields 0%nat [])
    as (cols & Hrun & Hlen & Hcols).
  exists cols. split; [exact Hrun | ]. split; [exact Hlen | ].
  intros i f Hi. destruct (Hcols i f Hi) as (col & Hlook & Hfor).
  simpl in Hfor. pose proof Hfor as (l & ci & Hl & Hci & _ & _ & _ & _ & _ & Ht & Hp).
  exists col, l, ci. repeat split; try assumption.
  - rewrite Ht. simpl. now rewrite Hci.
  - intros ft. rewrite Ht. now apply loadType_storeColumnType with ci.
Qed.

End Properties.

(** ** Further properties of the algorithms *)

Section Further.
Context `{F : Functions}.

(** Induction over expressions that reaches the arguments of a function. *)
Lemma Expression_nested_ind (P : Expression -> Prop) :
  P ENil ->
  (forall c, P (EConstant c)) ->
  (forall c, P (EColumn c)) ->
  (forall fn rt args, Forall P args -> P (EScalarFunction fn rt args)) ->
  forall e, P e.
Proof.
  intros Hnil Hconst Hcol Hfun.
  fix IH 1. intros [ | c | c | fn rt args].
  - exact Hnil.
  - apply Hconst.
  - apply Hcol.
  - apply Hfun. induction args as [ | a args IHargs].
    + constructor.
    + constructor; [apply IH | exact IHargs].
Qed.

(** *** Flattening *)

Lemma splitNormalFormItems_leaves (op : string) (e : Expression) :
  Forall (fun c => isApplicationOf op c = false) (splitNormalFormItems e op).
Proof.
  induction e as [ | c | c | fn rt args IH] using Expression_nested_ind;
    try (repeat constructor).
  simpl. destruct (String.eqb (L fn) op) eqn:Hname.
  - induction IH as [ | a args Ha _ IHargs]; simpl; [constructor | ].
    apply Forall_app. split; assumption.
  - repeat constructor. simpl. exact Hname.
Qed.

Lemma flat_map_split_leaves (op : string) (items : list Expression) :
  Forall (fun c => isApplicationOf op c = false) items ->
  flat_map (fun c => splitNormalFormItems c op) items = items.
Proof.
  induction 1 as [ | c items Hc _ IH]; simpl; [reflexivity | ].
  now rewrite (split_leaf op c Hc), IH.
Qed.

(** X1. No item that [splitNormalFormItems] returns is an application of
    the operator: flattening is complete, whatever the nesting of the
    input. *)
Theorem splitNormalFormItems_items_not_applications (op : string)
    (e : Expression) :
  Forall (fun c => isApplicationOf op c = false) (splitNormalFormItems e op)
  /\ Forall (fun c => isApplicationOf AndAnd c = false) (SplitCNFItems e)
  /\ Forall (fun c => isApplicationOf OrOr c = false) (SplitDNFItems e).
Proof.
  repeat split; apply splitNormalFormItems_leaves.
Qed.

(** X2. Flattening the items of a flattening changes nothing. *)
Theorem splitNormalFormItems_idempotent (op : string) (e : Expression) :
  flat_map (fun c => splitNormalFormItems c op) (splitNormalFormItems e op)
  = splitNormalFormItems e op.
Proof.
  apply flat_map_split_leaves, splitNormalFormItems_leaves.
Qed.

(** X3. Rebalancing: composing the items of a flattening into a balanced
    tree and flattening it again gives the same items in the same order. *)
Theorem split_compose_split (op : string) (e : Expression) :
  splitNormalFormItems e op <> [] ->
  ToLower op = op ->
  acceptsBinary op ->
  splitNormalFormItems
    (composeConditionWithBinaryOp (splitNormalFormItems e op) op) op
  = splitNormalFormItems e op.
Proof.
  intros Hne Hlower Hop.
  eapply composedOf_split; [exact Hlower | | apply splitNormalFormItems_leaves].
  now apply compose_composedOf.
Qed.

(** *** Composition *)

Lemma composedOf_nonempty (op : string) (h : nat) (items : list Expression)
    (e : Expression) :
  composedOf op h items e -> (1 <= length items)%nat.
Proof.
  induction 1; [simpl; lia | rewrite length_app; lia].
Qed.

Lemma composedOf_applications (op : string) (h : nat)
    (items : list Expression) (e : Expression) :
  composedOf op h items e ->
  applications e
  = (list_sum (map applications items) + (length items - 1))%nat.
Proof.
  induction 1 as [c | h1 h2 l1 l2 e1 e2 rt H1 IH1 H2 IH2].
  - simpl. lia.
  - apply composedOf_nonempty in H1, H2.
    rewrite map_app, list_sum_app, length_app. simpl. lia.
Qed.

(** X4. With an operator that [NewFunction] accepts on two arguments, the
    composition is the nil expression only for the empty list and for the
    list whose single element is nil. *)
Theorem compose_nil_iff (conditions : list Expression) (op : string) :
  acceptsBinary op ->
  composeConditionWithBinaryOp conditions op = ENil
  <-> conditions = [] \/ conditions = [ENil].
Proof.
  intros Hop. destruct conditions as [ | a [ | b rest]].
  - rewrite compose_nil. split; auto.
  - rewrite compose_single. split.
    + intros ->. now right.
    + intros [Hnil | Hone]; [discriminate | now injection Hone].
  - rewrite compose_split by (simpl; lia).
    rewrite NewFunction_binary by exact Hop. cbn [fst].
    split; [discriminate | intros [Hnil | Hone]; discriminate].
Qed.

(** X5. Composing N >= 1 conditions adds exactly N - 1 applications to
    those the conditions contain. *)
Theorem compose_applications (conditions : list Expression) (op : string) :
  conditions <> [] ->
  acceptsBinary op ->
  applications (composeConditionWithBinaryOp conditions op)
  = (list_sum (map applications conditions) + (length conditions - 1))%nat.
Proof.
  intros Hne Hop.
  eapply composedOf_applications.
  now apply compose_composedOf.
Qed.

(** X6. For a non-empty list of expressions none of which is an
    OR-application, [SplitDNFItems (ComposeDNFCondition list)] is the list
    itself, in the same order. *)
Theorem SplitDNF_ComposeDNF_same_list (conditions : list Expression) :
  conditions <> [] ->
  ToLower OrOr = OrOr ->
  acceptsBinary OrOr ->
  Forall (fun c => isApplicationOf OrOr c = false) conditions ->
  SplitDNFItems (ComposeDNFCondition conditions) = conditions.
Proof.
  intros Hne Hlower Hop Hall.
  unfold SplitDNFItems, ComposeDNFCondition.
  eapply composedOf_split; [exact Hlower | | exact Hall].
  now apply compose_composedOf.
Qed.

(** X7. A tree composed with OR from two or more conditions is a single
    item for the AND flattening, the two operator names being different:
    [SplitCNFItems] does not open a disjunction. *)
Theorem SplitCNF_ComposeDNF_single (conditions : list Expression) :
  (2 <= length conditions)%nat ->
  acceptsBinary OrOr ->
  ToLower OrOr <> AndAnd ->
  SplitCNFItems (ComposeDNFCondition conditions)
  = [ComposeDNFCondition conditions].
Proof.
  intros Hlen Hop Hdiff.
  unfold SplitCNFItems, ComposeDNFCondition.
  rewrite compose_split by exact Hlen.
  rewrite NewFunction_binary by exact Hop. cbn [fst].
  apply split_leaf. simpl.
  now apply String.eqb_neq.
Qed.

(** *** Null propagation *)

Lemma rewriteArgs_inl (rewrite : Expression -> outcome (Expression * option error))
    (args args' : list Expression) :
  rewriteArgs rewrite args = Return (inl args') ->
  Forall2 (fun a a' => rewrite a = Return (a', None)) args args'.
Proof.
  revert args'. induction args as [ | a args IH]; intros args'; simpl.
  - intros [= <-]. constructor.
  - destruct (rewrite a) as [ | [x [e | ]]] eqn:Ha; simpl; try discriminate.
    destruct (rewriteArgs rewrite args) as [ | [l | e]]; simpl; try discriminate.
    intros [= <-]. constructor; [exact Ha | now apply IH].
Qed.

Lemma rewriteArgs_inr (rewrite : Expression -> outcome (Expression * option error))
    (args : list Expression) (e : error) :
  rewriteArgs rewrite args = Return (inr e) ->
  exists a x err, In a args /\ rewrite a = Return (x, Some err) /\ e = Trace err.
Proof.
  induction args as [ | a args IH]; simpl; [discriminate | ].
  destruct (rewrite a) as [ | [x [err | ]]] eqn:Ha; simpl; try discriminate.
  - intros [= <-]. exists a, x, err. auto.
  - destruct (rewriteArgs rewrite args) as [ | [l | e']]; simpl; try discriminate.
    intros [= <-]. destruct (IH eq_refl) as (b & y & err & Hin & Hb & He).
    exists b, y, err. auto.
Qed.


Lemma EvaluateExprWithNull_ScalarFunction_success (schema : Schema)
    (fn : CIStr) (rt : TypeRef) (xargs : list Expression) (e' : Expression) :
  EvaluateExprWithNull schema (EScalarFunction fn rt xargs) = Return (e', None) ->
  exists args,
    Forall2 (fun a a' => EvaluateExprWithNull schema a = Return (a', None))
      xargs args
    /\ e' = EScalarFunction (NewCIStr (L fn)) (OwnType (NewFieldType TypeTiny)) args.
Proof.
  rewrite EvaluateExprWithNull_ScalarFunction_eq.
  destruct (rewriteArgs (EvaluateExprWithNull schema) xargs) as [ | [args | e]] eqn:Hargs;
    simpl; try discriminate.
  unfold NewFunction. destruct (checkCall (L fn) args); try discriminate.
  intros [= <-]. exists args. split; [now apply rewriteArgs_inl | reflexivity].
Qed.

Lemma filter_flat_map {A B : Type} (p : B -> bool) (f : A -> list B) (l : list A) :
  List.filter p (flat_map f l) = flat_map (fun x => List.filter p (f x)) l.
Proof.
  induction l as [ | x l IH]; simpl; [reflexivity | ].
  now rewrite List.filter_app, IH.
Qed.

(** X8. When [EvaluateExprWithNull] succeeds, the columns of the result
    are exactly the columns of the expression that the schema does not
    contain ([GetIndex] is -1), in the same order: every column of the
    schema has been replaced, every other column kept. *)
Theorem EvaluateExprWithNull_columns (schema : Schema) (e e' : Expression) :
  EvaluateExprWithNull schema e = Return (e', None) ->
  columnsOf e' = List.filter (fun c => GetIndex schema c =? -1) (columnsOf e)
  /\ Forall (fun c => GetIndex schema c = -1) (columnsOf e').
Proof.
  intros Hrun.
  assert (Heq : columnsOf e'
                = List.filter (fun c => GetIndex schema c =? -1) (columnsOf e)).
  { revert e' Hrun.
    induction e as [ | c | c | fn rt args IH] using Expression_nested_ind;
      intros e' Hrun.
    - discriminate.
    - injection Hrun as <-. reflexivity.
    - simpl in Hrun. simpl.
      destruct (GetIndex schema c =? -1); injection Hrun as <-; reflexivity.
    - apply EvaluateExprWithNull_ScalarFunction_success in Hrun
        as (args' & Hargs & ->).
      simpl. rewrite filter_flat_map.
      induction Hargs as [ | a a' args args' Ha _ IHargs]; simpl; [reflexivity | ].
      inversion IH as [ | ? ? IHa IHrest]; subst.
      now rewrite (IHa a' Ha), (IHargs IHrest). }
  split; [exact Heq | ].
  rewrite Heq. apply List.Forall_forall. intros c Hc.
  apply List.filter_In in Hc as [_ Hc]. now apply Z.eqb_eq.
Qed.


(** X10. When [EvaluateExprWithNull] returns an error, it returns no
    expression, and the cause of the error is an error with which
    [NewFunction] refused a call: no other error is produced. *)
Theorem EvaluateExprWithNull_error_cause (schema : Schema) (e x : Expression)
    (err : error) :
  EvaluateExprWithNull schema e = Return (x, Some err) ->
  x = ENil
  /\ exists funcName args cerr,
       checkCall funcName args = Some cerr /\ Cause err = Cause cerr.
Proof.
  revert x err.
  induction e as [ | c | c | fn rt args IH] using Expression_nested_ind;
    intros x err Hrun.
  - discriminate.
  - discriminate.
  - simpl in Hrun. destruct (GetIndex schema c =? -1); discriminate.
  - rewrite EvaluateExprWithNull_ScalarFunction_eq in Hrun.
    destruct (rewriteArgs (EvaluateExprWithNull schema) args) as [ | [args' | e]] eqn:Hargs;
      simpl in Hrun; try discriminate.
    + unfold NewFunction in Hrun.
      destruct (checkCall (L fn) args') as [cerr | ] eqn:Hcall; try discriminate.
      injection Hrun as <- <-. split; [reflexivity | ].
      now exists (L fn), args', cerr.
    + injection Hrun as <- <-. split; [reflexivity | ].
      apply rewriteArgs_inr in Hargs as (a & y & err' & Hin & Ha & ->).
      rewrite List.Forall_forall in IH.
      destruct (IH a Hin y err' Ha) as (_ & name & cargs & cerr & Hcall & Hcause).
      exists name, cargs, cerr. split; [exact Hcall | exact Hcause].
Qed.

(** X11. When [EvaluateExprWithNull] succeeds, the result is not nil,
    contains no nil, and has the nesting depth of the expression. *)
Theorem EvaluateExprWithNull_shape (schema : Schema) (e e' : Expression) :
  EvaluateExprWithNull schema e = Return (e', None) ->
  e' <> ENil /\ nilFree e' = true /\ depth e' = depth e.
Proof.
  revert e'.
  induction e as [ | c | c | fn rt args IH] using Expression_nested_ind;
    intros e' Hrun.
  - discriminate.
  - injection Hrun as <-. repeat split. discriminate.
  - simpl in Hrun.
    destruct (GetIndex schema c =? -1); injection Hrun as <-;
      repeat split; discriminate.
  - apply EvaluateExprWithNull_ScalarFunction_success in Hrun
      as (args' & Hargs & ->).
    split; [discriminate | ]. simpl.
    induction Hargs as [ | a a' args args' Ha _ IHargs]; simpl; [auto | ].
    inversion IH as [ | ? ? IHa IHrest]; subst.
    destruct (IHa a' Ha) as (_ & Hfree & Hdepth).
    destruct (IHargs IHrest) as [Hfrees Hdepths].
    rewrite Hfree, Hfrees, Hdepth. split; [reflexivity | ].
    injection Hdepths as ->. reflexivity.
Qed.

(** X12. Null propagation goes through the balanced composition: when
    each condition of a non-empty list is rewritten without error, the
    composition of the list is rewritten to the composition of the rewritten
    conditions. *)
Theorem EvaluateExprWithNull_compose (schema : Schema) (op : string)
    (conditions rewritten : list Expression) :
  conditions <> [] ->
  ToLower op = op ->
  acceptsBinary op ->
  Forall2 (fun c c' => EvaluateExprWithNull schema c = Return (c', None))
    conditions rewritten ->
  EvaluateExprWithNull schema (composeConditionWithBinaryOp conditions op)
  = Return (composeConditionWithBinaryOp rewritten op, None).
Proof.
  intros Hne Hlower Hop.
  remember (length conditions) as n eqn:Hn.
  revert conditions rewritten Hn Hne.
  induction n as [n IH] using lt_wf_ind.
  intros conditions rewritten Hn Hne Hall.
  pose proof (Forall2_length _ _ _ Hall) as Hlen.
  destruct Hall as [ | c c' cs cs' Hc Hcs]; [congruence | ].
  destruct Hcs as [ | d d' ds ds' Hd Hds].
  - now rewrite !compose_single.
  - assert (Hall : Forall2
              (fun c c' => EvaluateExprWithNull schema c = Return (c', None))
              (c :: d :: ds) (c' :: d' :: ds'))
      by (repeat constructor; assumption).
    remember (c :: d :: ds) as l eqn:Hl.
    remember (c' :: d' :: ds') as l' eqn:Hl'.
    assert (Hn2 : (2 <= n)%nat) by (subst n l; simpl; lia).
    pose proof (Nat.div_lt n 2 ltac:(lia) ltac:(lia)) as Hhalf.
    pose proof (Nat.div_str_pos n 2 ltac:(lia)) as Hpos.
    rewrite (compose_split l) by lia.
    rewrite (compose_split l') by lia.
    rewrite !NewFunction_binary by exact Hop. cbn [fst].
    rewrite EvaluateExprWithNull_ScalarFunction_eq.
    rewrite <- Hlen, <- Hn.
    assert (Hleft : EvaluateExprWithNull schema
                      (composeConditionWithBinaryOp (firstn (n / 2) l) op)
                    = Return (composeConditionWithBinaryOp (firstn (n / 2) l') op, None)).
    { apply (IH (n / 2)%nat Hhalf).
      - rewrite length_firstn. lia.
      - intros Hnil. apply (f_equal (@length _)) in Hnil.
        rewrite length_firstn in Hnil. cbn [length] in Hnil. lia.
      - now apply Forall2_take. }
    assert (Hright : EvaluateExprWithNull schema
                       (composeConditionWithBinaryOp (skipn (n / 2) l) op)
                     = Return (composeConditionWithBinaryOp (skipn (n / 2) l') op, None)).
    { apply (IH (n - n / 2)%nat ltac:(lia)).
      - rewrite length_skipn. lia.
      - intros Hnil. apply (f_equal (@length _)) in Hnil.
        rewrite length_skipn in Hnil. cbn [length] in Hnil. lia.
      - now apply Forall2_drop. }
    cbn [rewriteArgs]. rewrite Hleft. cbn [bind]. rewrite Hright. cbn [bind].
    cbn [L NewCIStr]. rewrite Hlower.
    now rewrite NewFunction_binary.
Qed.

(** *** Schema builder *)

Lemma fieldToColumn_Return_usable (h : Catalog) (i : nat)
    (field : option ResultField) (col : Column) :
  fieldToColumn h i field = Return col -> usableField h field.
Proof.
  destruct field as [f | ]; [ | discriminate].
  unfold fieldToColumn, addrFieldType, derefColumn, derefTable.
  intros Hrun. exists f.
  destruct (RF_Column f) as [l | ] eqn:Hcol;
    [destruct (columns h !! l) as [ci | ] eqn:Hci | ].
  - exists l, ci. do 2 (split; [reflexivity | ]). split; [exact Hci | ].
    intros Hnone. apply String.eqb_eq in Hnone. rewrite Hnone in Hrun.
    destruct (RF_Table f) as [t | ] eqn:Ht;
      [destruct (tables h !! t) as [ti | ] eqn:Hti | ].
    + now exists t, ti.
    + destruct (L (ColumnAsName f) =? "")%string; discriminate.
    + destruct (L (ColumnAsName f) =? "")%string; discriminate.
  - exfalso.
    destruct (L (ColumnAsName f) =? "")%string; cbn [bind] in Hrun;
      try discriminate.
    destruct (L (TableAsName f) =? "")%string; cbn [bind] in Hrun;
      try discriminate.
    destruct (RF_Table f) as [t | ]; [destruct (tables h !! t) | ];
      discriminate.
  - exfalso.
    destruct (L (ColumnAsName f) =? "")%string; cbn [bind] in Hrun;
      try discriminate.
    destruct (L (TableAsName f) =? "")%string; cbn [bind] in Hrun;
      try discriminate.
    destruct (RF_Table f) as [t | ]; [destruct (tables h !! t) | ];
      discriminate.
Qed.

Lemma ResultFieldsToSchema_from_Return_usable (h : Catalog)
    (fields : list (option ResultField)) :
  forall (i : nat) (acc schema : Schema),
    ResultFieldsToSchema_from h i fields acc = Return schema ->
    Forall (usableField h) fields.
Proof.
  induction fields as [ | field rest IH]; intros i acc schema Hrun.
  - constructor.
  - cbn [ResultFieldsToSchema_from] in Hrun.
    destruct (fieldToColumn h i field) as [ | col] eqn:Hcol; [discriminate | ].
    cbn [bind] in Hrun. constructor.
    + now apply fieldToColumn_Return_usable in Hcol.
    + exact (IH _ _ _ Hrun).
Qed.

(** X13. [ResultFieldsToSchema] returns a schema exactly when no field
    is nil, no field has a nil column, and every field without a table alias
    has a table; on any other list it panics. *)
Theorem ResultFieldsToSchema_returns_iff (h : Catalog)
    (fields : list (option ResultField)) :
  (exists schema, ResultFieldsToSchema h fields = Return schema)
  <-> Forall (usableField h) fields.
Proof.
  split.
  - intros [schema Hrun].
    exact (ResultFieldsToSchema_from_Return_usable h fields _ _ _ Hrun).
  - intros Hfields.
    destruct (ResultFieldsToSchema_from_usable h fields Hfields 0%nat [])
      as (cols & Hrun & _).
    now exists cols.
Qed.

(** X14. In every schema that [ResultFieldsToSchema] returns, the column
    at index [i] has [Position] [i] and a declared type that points to a
    column of the catalog, and the schema is as long as the list of fields. *)
Theorem ResultFieldsToSchema_positions (h : Catalog)
    (fields : list (option ResultField)) (schema : Schema) :
  ResultFieldsToSchema h fields = Return schema ->
  length schema = length fields
  /\ forall (i : nat) (col : Column),
       schema !! i = Some col ->
       Position col = Z.of_nat i
       /\ exists l ci, ColRetType col = CatalogType l /\ columns h !! l = Some ci.
Proof.
  intros Hrun.
  pose proof (ResultFieldsToSchema_from_Return_usable h fields _ _ _ Hrun)
    as Husable.
  destruct (ResultFieldsToSchema_from_usable h fields Husable 0%nat [])
    as (cols & Hrun' & Hlen & Hcols).
  unfold ResultFieldsToSchema in Hrun. rewrite Hrun' in Hrun.
  injection Hrun as <-. simpl. split; [exact Hlen | ].
  intros i col Hi.
  pose proof (lookup_lt_Some _ _ _ Hi) as Hlt. rewrite Hlen in Hlt.
  destruct (lookup_lt_is_Some_2 fields i Hlt) as [field Hfield].
  rewrite List.Forall_forall in Husable.
  destruct (Husable field) as (f & _ & _ & -> & _).
  { apply list_elem_of_In. eapply list_elem_of_lookup_2. exact Hfield. }
  destruct (Hcols i f Hfield) as (col' & Hlook & l & ci & _ & Hci & _ & _ & _ & _ & _ & Ht & Hp).
  simpl in Hlook. rewrite Hi in Hlook. injection Hlook as <-.
  split; [exact Hp | now exists l, ci].
Qed.

Lemma ResultFieldsToSchema_from_app (h : Catalog)
    (fields1 fields2 : list (option ResultField)) :
  forall (i : nat) (acc : Schema),
    ResultFieldsToSchema_from h i (fields1 ++ fields2) acc
    = let* s1 := ResultFieldsToSchema_from h i fields1 acc in
      ResultFieldsToSchema_from h (i + length fields1) fields2 s1.
Proof.
  induction fields1 as [ | field rest IH]; intros i acc.
  - simpl. now rewrite Nat.add_0_r.
  - cbn [app ResultFieldsToSchema_from length].
    destruct (fieldToColumn h i field) as [ | col]; [reflexivity | ].
    cbn [bind]. rewrite IH. now replace (S i + length rest)%nat
      with (i + S (length rest))%nat by lia.
Qed.

Lemma ResultFieldsToSchema_from_extends (h : Catalog)
    (fields : list (option ResultField)) :
  forall (i : nat) (acc schema : Schema),
    ResultFieldsToSchema_from h i fields acc = Return schema ->
    exists cols, schema = acc ++ cols /\ length cols = length fields.
Proof.
  induction fields as [ | field rest IH]; intros i acc schema Hrun.
  - injection Hrun as <-. exists []. now rewrite app_nil_r.
  - cbn [ResultFieldsToSchema_from] in Hrun.
    destruct (fieldToColumn h i field) as [ | col]; [discriminate | ].
    cbn [bind] in Hrun. destruct (IH _ _ _ Hrun) as (cols & -> & Hlen).
    exists (col :: cols). rewrite <- app_assoc. simpl. now rewrite Hlen.
Qed.

(** X15. The columns made of the first fields do not depend on the
    fields that follow: when [ResultFieldsToSchema] returns a schema for
    [fields1 ++ fields2], it returns for [fields1] the first
    [length fields1] columns of that schema. *)
Theorem ResultFieldsToSchema_prefix (h : Catalog)
    (fields1 fields2 : list (option ResultField)) (schema : Schema) :
  ResultFieldsToSchema h (fields1 ++ fields2) = Return schema ->
  ResultFieldsToSchema h fields1 = Return (firstn (length fields1) schema)
  /\ length (skipn (length fields1) schema) = length fields2.
Proof.
  unfold ResultFieldsToSchema. rewrite ResultFieldsToSchema_from_app.
  destruct (ResultFieldsToSchema_from h 0 fields1 []) as [ | s1] eqn:Hfirst;
    [discriminate | ].
  cbn [bind]. intros Hrest.
  destruct (ResultFieldsToSchema_from_extends _ _ _ _ _ Hfirst) as (c1 & -> & Hl1).
  destruct (ResultFieldsToSchema_from_extends _ _ _ _ _ Hrest) as (c2 & -> & Hl2).
  simpl. rewrite <- Hl1. split.
  - now rewrite firstn_app, Nat.sub_diag, firstn_all, firstn_O, app_nil_r.
  - now rewrite skipn_app, Nat.sub_diag, skipn_all, skipn_O.
Qed.

(** *** EvalBool *)

(** X16. [EvalBool] never returns true together with an error, and it
    returns true only when the evaluation gave, without error, a value that
    is not null and that coerces, without error, to a number other than
    zero; it panics only when the evaluation does. *)
Theorem EvalBool_true_only (expr : Expression) (row : list Datum)
    (ctx : EvalContext) :
  (forall b e, EvalBool expr row ctx = Return (b, Some e) -> b = false)
  /\ (forall err, EvalBool expr row ctx = Return (true, err) ->
      err = None
      /\ exists data i,
           Eval expr row ctx = Return (data, None)
           /\ IsNull data = false /\ ToBool data = (i, None) /\ i <> 0)
  /\ (EvalBool expr row ctx = Panic <-> Eval expr row ctx = Panic).
Proof.
  unfold EvalBool.
  destruct (Eval expr row ctx) as [ | [data [e | ]]] eqn:Heval; cbn [bind].
  - repeat split; try discriminate; auto.
  - repeat split; try discriminate. now intros b e' [= <- _].
  - destruct (IsNull data) eqn:Hnull.
    + repeat split; try discriminate.
    + destruct (ToBool data) as [i [e | ]] eqn:Hbool.
      * repeat split; try discriminate. now intros b e' [= <- _].
      * split; [discriminate | ]. split; [ | split; discriminate].
        intros err [= Hi <-]. split; [reflexivity | ].
        exists data, i. repeat split; auto.
        intros ->. discriminate.
Qed.

End Further.

(** ** The statements at concrete inputs *)

Import Demo.
Local Open Scope string_scope.

Lemma and_acceptsBinary : acceptsBinary "and".
Proof. intros x y. reflexivity. Defined.

Lemma fiveConditions_not_and :
  Forall (fun c => isApplicationOf "and" c = false) fiveConditions.
Proof. repeat constructor. Defined.

Lemma compose_balanced_depth_witness :
  fiveConditions <> []
  /\ acceptsBinary "and"
  /\ depth (composeConditionWithBinaryOp fiveConditions "and") = 3%nat.
Proof.
  assert (Hne : fiveConditions <> []) by discriminate.
  split; [exact Hne | ]. split; [exact and_acceptsBinary | ].
  exact (proj1 (proj2 (proj2 (proj2
           (compose_balanced_depth fiveConditions "and" Hne and_acceptsBinary))))
         0%nat ltac:(repeat constructor)).
Defined.

Lemma split_of_empty_composition_not_empty :
  SplitCNFItems (F := functions) (ComposeCNFCondition []) <> [].
Proof.
  unfold SplitCNFItems, ComposeCNFCondition. rewrite compose_nil.
  discriminate.
Qed.

Lemma split_compose_same_list_witness :
  fiveConditions <> []
  /\ ToLower "and" = "and"
  /\ acceptsBinary "and"
  /\ Forall (fun c => isApplicationOf "and" c = false) fiveConditions
  /\ splitNormalFormItems (composeConditionWithBinaryOp fiveConditions "and") "and"
     = fiveConditions.
Proof.
  assert (Hne : fiveConditions <> []) by discriminate.
  split; [exact Hne | ]. split; [reflexivity | ].
  split; [exact and_acceptsBinary | ].
  split; [exact fiveConditions_not_and | ].
  exact (split_compose_same_list "and" fiveConditions Hne eq_refl
           and_acceptsBinary fiveConditions_not_and).
Defined.

Lemma SplitCNF_ComposeCNF_empty_not_permutation :
  ~ (Forall (fun c => isApplicationOf (V := values) (AndAnd (Functions := functions)) c = false) [] ->
     Permutation (SplitCNFItems (F := functions) (ComposeCNFCondition [])) []).
Proof.
  intros Hclaim. specialize (Hclaim ltac:(constructor)).
  unfold SplitCNFItems, ComposeCNFCondition in Hclaim.
  rewrite compose_nil in Hclaim.
  apply Permutation_length in Hclaim. discriminate.
Qed.

Lemma SplitCNF_ComposeCNF_permutation_witness :
  fiveConditions <> []
  /\ ToLower AndAnd = AndAnd
  /\ acceptsBinary AndAnd
  /\ Forall (fun c => isApplicationOf AndAnd c = false) fiveConditions
  /\ Permutation (SplitCNFItems (ComposeCNFCondition fiveConditions))
       fiveConditions.
Proof.
  assert (Hne : fiveConditions <> []) by discriminate.
  split; [exact Hne | ]. split; [reflexivity | ].
  split; [exact and_acceptsBinary | ].
  split; [exact fiveConditions_not_and | ].
  exact (SplitCNF_ComposeCNF_permutation fiveConditions Hne eq_refl
           and_acceptsBinary fiveConditions_not_and).
Defined.



Lemma Constant_Equal_by_value_witness :
  CompareDatum (DInt 3) (DInt 3) = (0, None)
  /\ (forall k, col "a" <> EConstant k)
  /\ Constant_Equal (mkConstant (DInt 3) NilType)
       (EConstant (mkConstant (DInt 3) (OwnType 8))) = true
  /\ Constant_Equal (mkConstant (DInt 3) NilType) (col "a") = false.
Proof.
  assert (Hcmp : CompareDatum (DInt 3) (DInt 3) = (0, None)) by reflexivity.
  assert (Hother : forall k, col "a" <> EConstant k) by (intros k; discriminate).
  split; [exact Hcmp | ]. split; [exact Hother | ].
  exact (Constant_Equal_by_value (DInt 3) (DInt 3) NilType (OwnType 8)
           (mkConstant (DInt 3) NilType) (col "a") Hcmp Hother).
Defined.

Lemma EvalBool_cases_witness :
  Eval (int 3) [] tt = Return (DInt 3, None)
  /\ ToBool (DInt 3) = (1, None)
  /\ exists b, EvalBool (int 3) [] tt = Return (b, None) /\ (b = true <-> 1 <> 0).
Proof.
  split; [reflexivity | ]. split; [reflexivity | ].
  exact (proj2 (proj2 (proj2
           (EvalBool_cases (int 3) [] tt (DInt 3) None eq_refl)))
         1 eq_refl eq_refl eq_refl).
Defined.

Lemma EvaluateExprWithNull_Column_witness :
  IsNull Datum_zero = true
  /\ GetIndex [columnA] columnB = -1
  /\ EvaluateExprWithNull [columnA] (EColumn columnB) = Return (EColumn columnB, None)
  /\ GetIndex [columnA] columnA <> -1
  /\ exists k,
       EvaluateExprWithNull [columnA] (EColumn columnA) = Return (EConstant k, None)
       /\ Value k = Datum_zero
       /\ IsNull (Value k) = true
       /\ Constant_GetType k = NilType
       /\ (ColRetType columnA <> NilType -> Constant_GetType k <> ColRetType columnA).
Proof.
  assert (Hfound : GetIndex [columnA] columnA <> -1) by discriminate.
  split; [reflexivity | ]. split; [reflexivity | ].
  split.
  - exact (proj1 (EvaluateExprWithNull_Column [columnA] columnB eq_refl) eq_refl).
  - split; [exact Hfound | ].
    exact (proj2 (EvaluateExprWithNull_Column [columnA] columnA eq_refl) Hfound).
Defined.

Lemma EvaluateExprWithNull_ScalarFunction_witness :
  EvaluateExprWithNull [columnA] plusAB
  = Return (EScalarFunction (name "plus") (OwnType 1)
              [EConstant (mkConstant DNull NilType); EColumn columnB], None)
  /\ EvaluateExprWithNull [columnA]
       (EScalarFunction (name "plus") (OwnType 8) [EColumn columnB; unknownCall])
     = Return (ENil, Some (Trace (Errorf "unknown function"))).
Proof.
  split.
  - refine (proj1 (proj2 (proj1
             (EvaluateExprWithNull_ScalarFunction [columnA] (name "plus")
                (OwnType 8) [EColumn columnA; EColumn columnB])
             [EConstant (mkConstant DNull NilType); EColumn columnB] _)) eq_refl).
    repeat constructor.
  - refine (proj2
             (EvaluateExprWithNull_ScalarFunction [columnA] (name "plus")
                (OwnType 8) [EColumn columnB; unknownCall])
             [EColumn columnB] [EColumn columnB] unknownCall [] ENil
             (Errorf "unknown function") eq_refl _ eq_refl).
    repeat constructor.
Defined.

Lemma catalog_fields_usable :
  Forall (usableField catalog) [Some plainField; Some aliasedField].
Proof.
  repeat constructor.
  - exists plainField, 1%nat, (@mkColumnInfo values (name "c1") 3).
    repeat split. intros _. exists 7%nat, (mkTableInfo (name "t1")).
    repeat split.
  - exists aliasedField, 1%nat, (@mkColumnInfo values (name "c1") 3).
    repeat split. intros Hnone. discriminate Hnone.
Defined.

Lemma ResultFieldsToSchema_columns_witness :
  Forall (usableField catalog) [Some plainField; Some aliasedField]
  /\ exists schema : Schema,
       ResultFieldsToSchema catalog [Some plainField; Some aliasedField]
       = Return schema
       /\ length schema = 2%nat.
Proof.
  split; [exact catalog_fields_usable | ].
  destruct (ResultFieldsToSchema_columns catalog
              [Some plainField; Some aliasedField] catalog_fields_usable)
    as (schema & Hrun & Hlen & _).
  exists schema. split; [exact Hrun | exact Hlen].
Defined.

(** The two fields of the catalog above give the columns [c1]/[t1] at
    position 0 and, by their aliases, [c2]/[t2] at position 1, both with the
    address of the type descriptor of the catalog column 1. *)
Example ResultFieldsToSchema_two_fields :
  ResultFieldsToSchema catalog [Some plainField; Some aliasedField]
  = Return
      [ mkColumn (name "c1") (name "t1") (name "test") (CatalogType 1%nat) 0;
        mkColumn (name "c2") (name "t2") (name "test") (CatalogType 1%nat) 1 ].
Proof. reflexivity. Qed.

(** A nil field makes the loop body panic. *)
Example ResultFieldsToSchema_nil_field :
  ResultFieldsToSchema catalog [Some plainField; None] = Panic.
Proof. reflexivity. Qed.

(** Three conditions: the left half is the first one, the right half the
    application to the other two. *)
Example ComposeCNFCondition_three :
  ComposeCNFCondition [col "a"; col "b"; col "c"]
  = EScalarFunction (name "and") (OwnType 1)
      [col "a"; EScalarFunction (name "and") (OwnType 1) [col "b"; col "c"]].
Proof.
  unfold ComposeCNFCondition. now simp composeConditionWithBinaryOp.
Qed.

(** With a name the function table does not know, the discarded error leaves
    the nil expression. *)
Example compose_unknown_operator :
  composeConditionWithBinaryOp [col "a"; col "b"] "nope" = ENil.
Proof. now simp composeConditionWithBinaryOp. Qed.

(** [EvalBool] on a null constant, and on a string constant that does not
    coerce. *)
Example EvalBool_null :
  EvalBool (EConstant (mkConstant DNull NilType)) [] tt = Return (false, None).
Proof. reflexivity. Qed.

Example EvalBool_coercion_error :
  EvalBool (EConstant (mkConstant (DStr "x") NilType)) [] tt
  = Return (false,
            Some (Trace (Errorf "cannot convert a string to a boolean"))).
Proof. reflexivity. Qed.

(** The cause of a traced error is the cause of the error. *)
Lemma Cause_Trace (err : error) : Cause (Trace err) = Cause err.
Proof. reflexivity. Qed.

(** *** The further properties at concrete inputs *)

Lemma or_acceptsBinary : acceptsBinary "or".
Proof. intros x y. reflexivity. Defined.

Lemma fiveConditions_not_or :
  Forall (fun c => isApplicationOf "or" c = false) fiveConditions.
Proof. repeat constructor. Defined.

Lemma split_compose_split_witness :
  splitNormalFormItems leftDeep "and" = [col "a"; col "b"; col "c"; col "d"]
  /\ splitNormalFormItems
       (composeConditionWithBinaryOp (splitNormalFormItems leftDeep "and") "and")
       "and"
     = splitNormalFormItems leftDeep "and".
Proof.
  split; [reflexivity | ].
  refine (split_compose_split "and" leftDeep _ eq_refl and_acceptsBinary).
  discriminate.
Defined.

Lemma compose_nil_iff_witness :
  acceptsBinary "and"
  /\ composeConditionWithBinaryOp [ENil] "and" = ENil
  /\ composeConditionWithBinaryOp fiveConditions "and" <> ENil.
Proof.
  split; [exact and_acceptsBinary | ]. split.
  - exact (proj2 (compose_nil_iff [ENil] "and" and_acceptsBinary)
             (or_intror eq_refl)).
  - intros Hnil.
    destruct (proj1 (compose_nil_iff fiveConditions "and" and_acceptsBinary) Hnil)
      as [Hempty | Hone]; discriminate.
Defined.

Lemma compose_applications_witness :
  fiveConditions <> []
  /\ acceptsBinary "and"
  /\ applications (composeConditionWithBinaryOp fiveConditions "and") = 4%nat.
Proof.
  assert (Hne : fiveConditions <> []) by discriminate.
  split; [exact Hne | ]. split; [exact and_acceptsBinary | ].
  exact (compose_applications fiveConditions "and" Hne and_acceptsBinary).
Defined.

Lemma SplitDNF_ComposeDNF_same_list_witness :
  fiveConditions <> []
  /\ ToLower OrOr = OrOr
  /\ acceptsBinary OrOr
  /\ Forall (fun c => isApplicationOf OrOr c = false) fiveConditions
  /\ SplitDNFItems (ComposeDNFCondition fiveConditions) = fiveConditions.
Proof.
  assert (Hne : fiveConditions <> []) by discriminate.
  split; [exact Hne | ]. split; [reflexivity | ].
  split; [exact or_acceptsBinary | ].
  split; [exact fiveConditions_not_or | ].
  exact (SplitDNF_ComposeDNF_same_list fiveConditions Hne eq_refl
           or_acceptsBinary fiveConditions_not_or).
Defined.

Lemma SplitCNF_ComposeDNF_single_witness :
  (2 <= length fiveConditions)%nat
  /\ acceptsBinary OrOr
  /\ ToLower OrOr <> AndAnd
  /\ SplitCNFItems (ComposeDNFCondition fiveConditions)
     = [ComposeDNFCondition fiveConditions].
Proof.
  assert (Hlen : (2 <= length fiveConditions)%nat) by (simpl; lia).
  assert (Hdiff : ToLower OrOr <> AndAnd) by discriminate.
  split; [exact Hlen | ]. split; [exact or_acceptsBinary | ].
  split; [exact Hdiff | ].
  exact (SplitCNF_ComposeDNF_single fiveConditions Hlen or_acceptsBinary Hdiff).
Defined.

Lemma EvaluateExprWithNull_columns_witness :
  EvaluateExprWithNull [columnA] plusAB = Return (plusNullB, None)
  /\ columnsOf plusNullB = [columnB]
  /\ Forall (fun c => GetIndex [columnA] c = -1) (columnsOf plusNullB).
Proof.
  split; [reflexivity | ].
  exact (EvaluateExprWithNull_columns [columnA] plusAB plusNullB eq_refl).
Defined.


Lemma EvaluateExprWithNull_error_cause_witness :
  EvaluateExprWithNull [columnA] plusWithUnknown
  = Return (ENil, Some (Trace (Errorf "unknown function")))
  /\ exists funcName args cerr,
       checkCall funcName args = Some cerr
       /\ Cause (Trace (Errorf "unknown function")) = Cause cerr.
Proof.
  split; [reflexivity | ].
  exact (proj2 (EvaluateExprWithNull_error_cause [columnA] plusWithUnknown ENil
                  (Trace (Errorf "unknown function")) eq_refl)).
Defined.

Lemma EvaluateExprWithNull_shape_witness :
  EvaluateExprWithNull [columnA] plusAB = Return (plusNullB, None)
  /\ plusNullB <> ENil
  /\ nilFree plusNullB = true
  /\ depth plusNullB = depth plusAB.
Proof.
  split; [reflexivity | ].
  exact (EvaluateExprWithNull_shape [columnA] plusAB plusNullB eq_refl).
Defined.

Lemma EvaluateExprWithNull_compose_witness :
  EvaluateExprWithNull [columnA]
    (composeConditionWithBinaryOp [EColumn columnA; EColumn columnB; int 3] "and")
  = Return (composeConditionWithBinaryOp [nullConstant; EColumn columnB; int 3] "and",
            None).
Proof.
  refine (EvaluateExprWithNull_compose [columnA] "and"
            [EColumn columnA; EColumn columnB; int 3]
            [nullConstant; EColumn columnB; int 3] _ eq_refl and_acceptsBinary _).
  - discriminate.
  - repeat constructor.
Defined.

Lemma ResultFieldsToSchema_positions_witness :
  ResultFieldsToSchema catalog [Some plainField; Some aliasedField]
  = Return
      [ mkColumn (name "c1") (name "t1") (name "test") (CatalogType 1%nat) 0;
        mkColumn (name "c2") (name "t2") (name "test") (CatalogType 1%nat) 1 ]
  /\ length
       [ mkColumn (name "c1") (name "t1") (name "test") (CatalogType 1%nat) 0;
         mkColumn (name "c2") (name "t2") (name "test") (CatalogType 1%nat) 1 ]
     = 2%nat.
Proof.
  split; [reflexivity | ].
  exact (proj1 (ResultFieldsToSchema_positions catalog
                  [Some plainField; Some aliasedField] _ eq_refl)).
Defined.

Lemma ResultFieldsToSchema_prefix_witness :
  ResultFieldsToSchema catalog ([Some plainField] ++ [Some aliasedField])
  = Return
      [ mkColumn (name "c1") (name "t1") (name "test") (CatalogType 1%nat) 0;
        mkColumn (name "c2") (name "t2") (name "test") (CatalogType 1%nat) 1 ]
  /\ ResultFieldsToSchema catalog [Some plainField]
     = Return
         [ mkColumn (name "c1") (name "t1") (name "test") (CatalogType 1%nat) 0 ].
Proof.
  split; [reflexivity | ].
  exact (proj1 (ResultFieldsToSchema_prefix catalog
                  [Some plainField] [Some aliasedField] _ eq_refl)).
Defined.
